(** * Verification of [bst.py]: an unbalanced binary search tree

    The Python module defines [TreeNode] (key, value, left, right) and
    [BinarySearchTree] with [insert], [search], [delete], [height] and
    [is_balanced].  The tree is acyclic and every node owns its children, so
    an [Optional[TreeNode]] is an inductive tree and a method that mutates
    [self.root] in place is a function from the old root to the new one.

    Keys are Python objects compared with [==], [<] and [>]; the three
    comparisons are the operations of the class [KeyOrder], whose laws say
    that they form one strict total order.  Values are opaque.  Python
    integers ([height], the balance test) are [Z]. *)

From Stdlib Require Import ZArith List Bool Lia Sorted.
From Stdlib Require String.
Import String.StringSyntax.
Delimit Scope string_scope with string.
Import ListNotations.

Set Implicit Arguments.

(** ** Keys *)

Class KeyOrder (K : Type) : Type := {
  key_eqb : K -> K -> bool;   (* a == b *)
  key_ltb : K -> K -> bool;   (* a <  b *)
  key_gtb : K -> K -> bool;   (* a >  b *)
  key_eqb_eq : forall a b, key_eqb a b = true <-> a = b;
  key_ltb_irrefl : forall a, key_ltb a a = false;
  key_ltb_trans : forall a b c,
      key_ltb a b = true -> key_ltb b c = true -> key_ltb a c = true;
  key_ltb_total : forall a b,
      key_ltb a b = true \/ a = b \/ key_ltb b a = true;
  key_gtb_ltb : forall a b, key_gtb a b = key_ltb b a
}.

(** Python integers as keys, as in [_demo]. *)
#[export, refine] Instance Z_KeyOrder : KeyOrder Z := {
  key_eqb := Z.eqb;
  key_ltb := Z.ltb;
  key_gtb := Z.gtb
}.
Proof.
  - intros a b. apply Z.eqb_eq.
  - intros a. apply Z.ltb_irrefl.
  - intros a b c H1 H2. apply Z.ltb_lt. apply Z.ltb_lt in H1, H2. lia.
  - intros a b. rewrite !Z.ltb_lt. lia.
  - intros a b. apply Z.gtb_ltb.
Defined.

(** [ceil (log2 n)] for [n >= 1]: the least [h] with [n <= 2 ^ h]. *)
Definition ceil_log2 (n : Z) : Z := Z.log2_up n.

(** ** The tree and its operations *)

Section BST.

Context {K V : Type} `{KO : KeyOrder K}.

(** [Optional[TreeNode]]: [Leaf] is [None], [Node key value left right] is a
    [TreeNode] with its four fields in the order of the dataclass. *)
Inductive tree : Type :=
| Leaf : tree
| Node (key : K) (value : V) (left right : tree) : tree.

(** [BinarySearchTree.insert]: the loop walks down from the root; the
    result is the root after the call.  [Leaf] covers [self.root is None],
    [current.left is None] and [current.right is None], where the new node is
    attached. *)
Fixpoint insert (key : K) (value : V) (current : tree) : tree :=
  match current with
  | Leaf => Node key value Leaf Leaf
  | Node ckey cvalue cleft cright =>
      if key_eqb key ckey then Node ckey value cleft cright
      else if key_ltb key ckey then
        Node ckey cvalue (insert key value cleft) cright
      else Node ckey cvalue cleft (insert key value cright)
  end.

(** [BinarySearchTree.search]; [None] is the absent result. *)
Fixpoint search (key : K) (current : tree) : option V :=
  match current with
  | Leaf => None
  | Node ckey cvalue cleft cright =>
      if key_eqb key ckey then Some cvalue
      else if key_ltb key ckey then search key cleft
      else search key cright
  end.

(** The loop [successor = node.right; while successor.left: successor =
    successor.left], started at a node with the given key, value and left
    child; the result is the key and value of the node the loop stops at. *)
Fixpoint successor (key : K) (value : V) (sleft : tree) : K * V :=
  match sleft with
  | Leaf => (key, value)
  | Node lkey lvalue lleft _ => successor lkey lvalue lleft
  end.

(** The inner function [_delete] of [BinarySearchTree.delete]. *)
Fixpoint _delete (node : tree) (target : K) : tree * bool :=
  match node with
  | Leaf => (Leaf, false)
  | Node key value nleft nright =>
      if key_ltb target key then
        let (nleft', removed) := _delete nleft target in
        (Node key value nleft' nright, removed)
      else if key_gtb target key then
        let (nright', removed) := _delete nright target in
        (Node key value nleft nright', removed)
      else
        match nleft, nright with
        | Leaf, Leaf => (Leaf, true)
        | Leaf, Node _ _ _ _ => (nright, true)
        | Node _ _ _ _, Leaf => (nleft, true)
        | Node _ _ _ _, Node rkey rvalue rleft _ =>
            let (skey, svalue) := successor rkey rvalue rleft in
            let (nright', _) := _delete nright skey in
            (Node skey svalue nleft nright', true)
        end
  end.

(** [BinarySearchTree.delete]: the new root and the returned flag. *)
Definition delete (key : K) (root : tree) : tree * bool := _delete root key.

(** The inner function [_height] of [BinarySearchTree.height]. *)
Fixpoint _height (node : tree) : Z :=
  match node with
  | Leaf => 0
  | Node _ _ nleft nright => 1 + Z.max (_height nleft) (_height nright)
  end%Z.

Definition height (root : tree) : Z := _height root.

(** The inner function [_check] of [BinarySearchTree.is_balanced]. *)
Fixpoint _check (node : tree) : Z * bool :=
  match node with
  | Leaf => (0, true)
  | Node _ _ nleft nright =>
      let (left_height, left_balanced) := _check nleft in
      let (right_height, right_balanced) := _check nright in
      let height := 1 + Z.max left_height right_height in
      let balanced :=
        left_balanced && right_balanced
        && (Z.abs (left_height - right_height) <=? 1) in
      (height, balanced)
  end%Z.

Definition is_balanced (root : tree) : bool := snd (_check root).

(** ** Notions the properties are stated with *)

(** [a < b] as a proposition. *)
Definition key_lt (a b : K) : Prop := key_ltb a b = true.

(** In-order traversal: left subtree, node, right subtree. *)
Fixpoint bindings (t : tree) : list (K * V) :=
  match t with
  | Leaf => []
  | Node key value nleft nright =>
      bindings nleft ++ (key, value) :: bindings nright
  end.

Definition keys (t : tree) : list K := map fst (bindings t).

(** Number of nodes reachable from the root. *)
Fixpoint size (t : tree) : nat :=
  match t with
  | Leaf => 0
  | Node _ _ nleft nright => S (size nleft + size nright)
  end.

(** BST ordering: at every node, the keys of the left subtree are strictly
    smaller and the keys of the right subtree strictly greater. *)
Fixpoint BST (t : tree) : Prop :=
  match t with
  | Leaf => True
  | Node key _ nleft nright =>
      Forall (fun x => key_lt x key) (keys nleft)
      /\ Forall (fun x => key_lt key x) (keys nright)
      /\ BST nleft /\ BST nright
  end.

(** Strictly ascending list of keys. *)
Definition ascending (ks : list K) : Prop := StronglySorted key_lt ks.

(** The shape of a tree: the tree without its keys and values. *)
Inductive shape : Type :=
| SLeaf : shape
| SNode (sl sr : shape) : shape.

Fixpoint shape_of (t : tree) : shape :=
  match t with
  | Leaf => SLeaf
  | Node _ _ nleft nright => SNode (shape_of nleft) (shape_of nright)
  end.

(** First value bound to [key] in an association list. *)
Fixpoint lookup (key : K) (kvs : list (K * V)) : option V :=
  match kvs with
  | [] => None
  | (k, v) :: rest => if key_eqb key k then Some v else lookup key rest
  end.

(** The bindings whose key is [key], and the others. *)
Definition with_key (key : K) (kvs : list (K * V)) : list (K * V) :=
  filter (fun kv => key_eqb (fst kv) key) kvs.

Definition without_key (key : K) (kvs : list (K * V)) : list (K * V) :=
  filter (fun kv => negb (key_eqb (fst kv) key)) kvs.

(** A sequence of calls of [insert], in order. *)
Definition insert_all (kvs : list (K * V)) (root : tree) : tree :=
  fold_left (fun t kv => insert (fst kv) (snd kv) t) kvs root.

(** The value of the last pair of [kvs] whose key is [key]. *)
Definition last_inserted (key : K) (kvs : list (K * V)) : option V :=
  lookup key (rev kvs).

(** Calls of the two mutating methods, and a sequence of them run on a
    root. *)
Inductive operation : Type :=
| OpInsert (key : K) (value : V)
| OpDelete (key : K).

Definition apply_op (root : tree) (o : operation) : tree :=
  match o with
  | OpInsert key value => insert key value root
  | OpDelete key => fst (delete key root)
  end.

Definition run (ops : list operation) (root : tree) : tree :=
  fold_left apply_op ops root.

(** The branches of [_delete] taken, in order, at the nodes where a call
    stops descending: [node is None], no child, one child, two children.
    Only the two-children branch calls [_delete] again, on the right
    subtree and with the successor's key, and the branches of that call
    follow.  The descent is the one of [_delete]. *)
Inductive delete_case : Type :=
| NotFound | LeafCase | OneChildCase | TwoChildrenCase.

Fixpoint _delete_trace (node : tree) (target : K) : list delete_case :=
  match node with
  | Leaf => [NotFound]
  | Node key _ nleft nright =>
      if key_ltb target key then _delete_trace nleft target
      else if key_gtb target key then _delete_trace nright target
      else
        match nleft, nright with
        | Leaf, Leaf => [LeafCase]
        | Leaf, Node _ _ _ _ => [OneChildCase]
        | Node _ _ _ _, Leaf => [OneChildCase]
        | Node _ _ _ _, Node rkey rvalue rleft _ =>
            let (skey, _) := successor rkey rvalue rleft in
            TwoChildrenCase :: _delete_trace nright skey
        end
  end.

(** The key and value of the leftmost node of a tree. *)
Fixpoint leftmost (t : tree) : option (K * V) :=
  match t with
  | Leaf => None
  | Node key value Leaf _ => Some (key, value)
  | Node _ _ nleft _ => leftmost nleft
  end.

(** All root-to-leaf paths, each as the list of the keys on it; a leaf is a
    node without children. *)
Fixpoint paths (t : tree) : list (list K) :=
  match t with
  | Leaf => []
  | Node key _ nleft nright =>
      match nleft, nright with
      | Leaf, Leaf => [[key]]
      | _, _ => map (cons key) (paths nleft ++ paths nright)
      end
  end.

(** The balance condition as the documentation states it, with the height
    of each subtree recomputed by [_height]: at every node the heights of
    the two subtrees differ by at most 1. *)
Fixpoint balanced_spec (t : tree) : Prop :=
  match t with
  | Leaf => True
  | Node _ _ nleft nright =>
      (Z.abs (_height nleft - _height nright) <= 1)%Z
      /\ balanced_spec nleft /\ balanced_spec nright
  end.

(** A finite map as a function from keys: the reference that a tree is
    compared with through [search].  [model_insert] and [model_delete] are
    what [insert] and [delete] are meant to do to it. *)
Definition model_insert (key : K) (value : V) (m : K -> option V)
  : K -> option V :=
  fun k => if key_eqb k key then Some value else m k.

Definition model_delete (key : K) (m : K -> option V) : K -> option V :=
  fun k => if key_eqb k key then None else m k.

Definition model_op (m : K -> option V) (o : operation) : K -> option V :=
  match o with
  | OpInsert key value => model_insert key value m
  | OpDelete key => model_delete key m
  end.

Definition model_run (ops : list operation) (m : K -> option V)
  : K -> option V :=
  fold_left model_op ops m.

(** The tree in which every node has only a right child, with the given
    bindings from the root down. *)
Fixpoint chain (kvs : list (K * V)) : tree :=
  match kvs with
  | [] => Leaf
  | (k, v) :: rest => Node k v Leaf (chain rest)
  end.

(** Pre-order listing of the bindings: node, left subtree, right subtree. *)
Fixpoint preorder (t : tree) : list (K * V) :=
  match t with
  | Leaf => []
  | Node key value nleft nright =>
      (key, value) :: preorder nleft ++ preorder nright
  end.

End BST.

Arguments tree : clear implicits.
Arguments operation : clear implicits.

(** The tree built by [_demo]. *)
Definition demo_pairs : list (Z * String.string) :=
  [(5, "root"); (3, "left"); (7, "right"); (2, "leaf"); (4, "mid")]%Z%string.


Definition demo_tree : tree Z String.string := insert_all demo_pairs Leaf.

(** The same pairs in ascending order of their keys, and the tree they
    build. *)
Definition sorted_pairs : list (Z * String.string) :=
  [(2, "leaf"); (3, "left"); (4, "mid"); (5, "root"); (7, "right")]%Z%string.


(** A node with two children whose right child has a left child. *)
Definition two_children_tree : tree Z String.string :=
  Node 3%Z "left"%string
       (Node 2%Z "leaf"%string Leaf Leaf)
       (Node 5%Z "root"%string
             (Node 4%Z "mid"%string Leaf Leaf)
             (Node 7%Z "right"%string Leaf Leaf)).

(** A tree that is not a search tree: 9 sits in the left subtree of 5. *)
Definition unordered_tree : tree Z String.string :=
  Node 5%Z "a"%string (Node 9%Z "b"%string Leaf Leaf) Leaf.

(** * Proofs *)

Section Order.

Context {K : Type} `{KO : KeyOrder K}.

Lemma key_lt_irrefl (a : K) : ~ key_lt a a.
Proof. unfold key_lt. rewrite key_ltb_irrefl. discriminate. Qed.

Lemma key_lt_trans (a b c : K) : key_lt a b -> key_lt b c -> key_lt a c.
Proof. apply key_ltb_trans. Qed.

Lemma key_lt_asym (a b : K) : key_lt a b -> ~ key_lt b a.
Proof. intros H1 H2. exact (key_lt_irrefl (key_lt_trans H1 H2)). Qed.

Lemma key_lt_neq (a b : K) : key_lt a b -> a <> b.
Proof. intros H ->. exact (key_lt_irrefl H). Qed.

Lemma key_eqb_refl (a : K) : key_eqb a a = true.
Proof. now apply key_eqb_eq. Qed.

Lemma key_eqb_neq (a b : K) : key_eqb a b = false <-> a <> b.
Proof.
  rewrite <- (key_eqb_eq a b). destruct (key_eqb a b); split; congruence.
Qed.

Lemma key_eqb_sym (a b : K) : key_eqb a b = key_eqb b a.
Proof.
  destruct (key_eqb b a) eqn:E.
  - apply key_eqb_eq in E. subst. apply key_eqb_refl.
  - apply key_eqb_neq. apply key_eqb_neq in E. congruence.
Qed.

(** The three comparisons of two keys, decided together. *)
Inductive compare_keys (a b : K) : bool -> bool -> bool -> Prop :=
| KeysLt : key_lt a b -> compare_keys a b false true false
| KeysEq : a = b -> compare_keys a b true false false
| KeysGt : key_lt b a -> compare_keys a b false false true.

Lemma compare_keysP (a b : K) :
  compare_keys a b (key_eqb a b) (key_ltb a b) (key_gtb a b).
Proof.
  rewrite key_gtb_ltb.
  destruct (key_ltb_total a b) as [H | [H | H]].
  - pose proof (key_lt_neq H) as N. apply key_eqb_neq in N.
    pose proof (key_lt_asym H) as A. unfold key_lt in *.
    rewrite N, H. destruct (key_ltb b a); [now elim A | constructor; exact H].
  - subst. rewrite key_eqb_refl, key_ltb_irrefl. now constructor.
  - pose proof (key_lt_neq H) as N. apply not_eq_sym in N.
    apply key_eqb_neq in N.
    pose proof (key_lt_asym H) as A. unfold key_lt in *.
    rewrite N, H. destruct (key_ltb a b); [now elim A | constructor; exact H].
Qed.

End Order.

Create HintDb order.
#[local] Hint Resolve key_lt_trans : order.

(** Closes a goal from the order facts among the hypotheses. *)
Ltac order :=
  subst;
  solve
    [ eauto with order
    | exfalso;
      match goal with
      | H : key_lt ?a ?a |- _ => exact (key_lt_irrefl H)
      | H1 : key_lt ?a ?b, H2 : key_lt ?b ?a |- _ => exact (key_lt_asym H1 H2)
      | H1 : key_lt ?a ?b, H2 : key_lt ?b ?c, H3 : key_lt ?c ?a |- _ =>
          exact (key_lt_asym (key_lt_trans H1 H2) H3)
      | H : ?a <> ?a |- _ => now apply H
      end ].

(** Case analysis on the comparisons of [a] with [b] in the goal. *)
Ltac cmp a b := destruct (compare_keysP a b); try order.

Section Proofs.

Context {K V : Type} `{KO : KeyOrder K}.

Implicit Types (t l r : tree K V) (k : K) (v : V) (kvs : list (K * V)).

(** ** Association lists *)

Lemma notin_above k a (ks : list K) :
  Forall (fun x => key_lt a x) ks -> a = k \/ key_lt k a -> ~ In k ks.
Proof.
  intros F H I. rewrite Forall_forall in F. specialize (F _ I).
  destruct H; order.
Qed.

Lemma notin_below k a (ks : list K) :
  Forall (fun x => key_lt x a) ks -> a = k \/ key_lt a k -> ~ In k ks.
Proof.
  intros F H I. rewrite Forall_forall in F. specialize (F _ I).
  destruct H; order.
Qed.

Lemma lookup_app k kvs1 kvs2 :
  lookup k (kvs1 ++ kvs2) =
  match lookup k kvs1 with Some v => Some v | None => lookup k kvs2 end.
Proof.
  induction kvs1 as [| [k1 v1] kvs1 IH]; simpl; [reflexivity |].
  destruct (key_eqb k k1); [reflexivity | exact IH].
Qed.

Lemma lookup_notin k kvs : ~ In k (map fst kvs) -> lookup k kvs = None.
Proof.
  induction kvs as [| [k1 v1] kvs IH]; simpl; intros N; [reflexivity |].
  cmp k k1; try (apply IH; tauto); elim N; now left.
Qed.

Lemma lookup_in k kvs : In k (map fst kvs) -> lookup k kvs <> None.
Proof.
  induction kvs as [| [k1 v1] kvs IH]; simpl; [tauto |].
  intros [-> | I].
  - rewrite key_eqb_refl. discriminate.
  - destruct (key_eqb k k1); [discriminate | now apply IH].
Qed.

Lemma lookup_without_same k kvs : lookup k (without_key k kvs) = None.
Proof.
  induction kvs as [| [k1 v1] kvs IH]; simpl; [reflexivity |].
  rewrite (key_eqb_sym k1 k).
  destruct (key_eqb k k1) eqn:E; simpl; [exact IH |].
  rewrite E. exact IH.
Qed.

Lemma lookup_without_other k k' kvs :
  k' <> k -> lookup k' (without_key k kvs) = lookup k' kvs.
Proof.
  intros N. induction kvs as [| [k1 v1] kvs IH]; simpl; [reflexivity |].
  destruct (key_eqb k1 k) eqn:E; simpl.
  - apply key_eqb_eq in E. subst k1.
    apply key_eqb_neq in N. rewrite N. exact IH.
  - rewrite IH. reflexivity.
Qed.

Lemma without_key_app k kvs1 kvs2 :
  without_key k (kvs1 ++ kvs2) = without_key k kvs1 ++ without_key k kvs2.
Proof. apply filter_app. Qed.

Lemma with_key_app k kvs1 kvs2 :
  with_key k (kvs1 ++ kvs2) = with_key k kvs1 ++ with_key k kvs2.
Proof. apply filter_app. Qed.

Lemma without_key_cons k k1 v1 kvs :
  without_key k ((k1, v1) :: kvs) =
  if key_eqb k1 k then without_key k kvs else (k1, v1) :: without_key k kvs.
Proof. unfold without_key. simpl. now destruct (key_eqb k1 k). Qed.

Lemma without_key_notin k kvs :
  ~ In k (map fst kvs) -> without_key k kvs = kvs.
Proof.
  induction kvs as [| [k1 v1] kvs IH]; simpl; intros N; [reflexivity |].
  cmp k1 k; simpl; try (f_equal; apply IH; tauto); elim N; now left.
Qed.

Lemma with_key_notin k kvs : ~ In k (map fst kvs) -> with_key k kvs = [].
Proof.
  induction kvs as [| [k1 v1] kvs IH]; simpl; intros N; [reflexivity |].
  cmp k1 k; simpl; try (apply IH; tauto); elim N; now left.
Qed.

Lemma map_fst_without k kvs :
  map fst (without_key k kvs) = filter (fun x => negb (key_eqb x k)) (map fst kvs).
Proof.
  induction kvs as [| [k1 v1] kvs IH]; simpl; [reflexivity |].
  destruct (key_eqb k1 k); simpl; now rewrite IH.
Qed.

(** Removing the bindings of a key that occurs once removes one binding. *)
Lemma length_without_key k kvs :
  NoDup (map fst kvs) -> In k (map fst kvs) ->
  S (length (without_key k kvs)) = length kvs.
Proof.
  induction kvs as [| [k1 v1] kvs IH]; simpl; [tauto |].
  intros ND I. inversion ND as [| ? ? N1 ND']; subst.
  cmp k1 k; simpl.
  - destruct I as [E | I]; [order | now rewrite IH].
  - subst k1. now rewrite without_key_notin.
  - destruct I as [E | I]; [order | now rewrite IH].
Qed.

(** ** Keys in order *)

Lemma keys_node k v l r : keys (Node k v l r) = keys l ++ k :: keys r.
Proof. unfold keys. simpl. now rewrite map_app. Qed.

Lemma size_bindings t : size t = length (bindings t).
Proof.
  induction t as [| k v l IHl r IHr]; simpl; [reflexivity |].
  rewrite length_app. simpl. lia.
Qed.

Lemma ascending_app (ks1 ks2 : list K) a :
  ascending (ks1 ++ a :: ks2) <->
  Forall (fun x => key_lt x a) ks1 /\ Forall (fun x => key_lt a x) ks2
  /\ ascending ks1 /\ ascending ks2.
Proof.
  unfold ascending. induction ks1 as [| b ks1 IH]; simpl.
  - split.
    + intros S. inversion S; subst. repeat split; auto; constructor.
    + intros (_ & F & _ & S). now constructor.
  - split.
    + intros S. inversion S as [| ? ? S' F]; subst.
      apply IH in S'. destruct S' as (F1 & F2 & S1 & S2).
      apply Forall_app in F. destruct F as [Fa Fb].
      inversion Fb; subst.
      repeat split; auto; constructor; auto.
    + intros (F1 & F2 & S1 & S2).
      inversion F1; subst. inversion S1; subst.
      constructor; [apply IH; auto |].
      apply Forall_app. split; [assumption |].
      constructor; [assumption |].
      eapply Forall_impl; [| exact F2]. simpl. intros; order.
Qed.

Lemma BST_ascending t : BST t <-> ascending (keys t).
Proof.
  induction t as [| k v l IHl r IHr]; simpl.
  - split; [constructor | trivial].
  - rewrite keys_node, ascending_app, IHl, IHr. tauto.
Qed.

Lemma ascending_NoDup (ks : list K) : ascending ks -> NoDup ks.
Proof.
  unfold ascending. induction 1 as [| a ks S IH F]; constructor; [| exact IH].
  intros I. rewrite Forall_forall in F. specialize (F _ I). order.
Qed.

Lemma ascending_filter (f : K -> bool) (ks : list K) :
  ascending ks -> ascending (filter f ks).
Proof.
  unfold ascending. induction 1 as [| a ks S IH F]; simpl; [constructor |].
  destruct (f a); [| exact IH].
  constructor; [exact IH |].
  rewrite Forall_forall in *. intros x I. apply filter_In in I. now apply F.
Qed.

Lemma BST_NoDup t : BST t -> NoDup (keys t).
Proof. intros B. now apply ascending_NoDup, BST_ascending. Qed.

(** In a search tree, [search] is the lookup in the in-order bindings. *)
Lemma search_lookup k t : BST t -> search k t = lookup k (bindings t).
Proof.
  induction t as [| k' v' l IHl r IHr]; simpl; [reflexivity |].
  intros (Fl & Fr & Bl & Br). rewrite lookup_app. simpl.
  cmp k k'.
  - rewrite IHl by assumption.
    destruct (lookup k (bindings l)); [reflexivity |].
    symmetry. apply lookup_notin. apply (notin_above Fr). now right.
  - rewrite lookup_notin; [reflexivity |].
    apply (notin_below Fl). now left.
  - rewrite lookup_notin; [now apply IHr |].
    apply (notin_below Fl). now right.
Qed.

(** In a search tree, the keys that some node holds are the keys that
    [search] finds. *)
Lemma search_present k t : BST t -> In k (keys t) <-> search k t <> None.
Proof.
  intros B. rewrite search_lookup by exact B. split; [apply lookup_in |].
  intros S. unfold keys.
  induction (bindings t) as [| [k1 v1] kvs IH]; simpl in *; [congruence |].
  destruct (key_eqb k k1) eqn:E; [left | right; now apply IH].
  apply key_eqb_eq in E. now subst.
Qed.

(** ** [insert] *)

Lemma Forall_keys_node (P : K -> Prop) k v l r :
  Forall P (keys (Node k v l r)) <->
  Forall P (keys l) /\ P k /\ Forall P (keys r).
Proof.
  rewrite keys_node, Forall_app. split.
  - intros (Fl & Fr). inversion Fr; subst. auto.
  - intros (Fl & Pk & Fr). auto.
Qed.

Lemma Forall_keys_insert (P : K -> Prop) k v t :
  Forall P (keys (insert k v t)) <-> P k /\ Forall P (keys t).
Proof.
  induction t as [| k' v' l IHl r IHr]; simpl.
  - rewrite Forall_keys_node. unfold keys. simpl. intuition.
  - cmp k k'; rewrite !Forall_keys_node.
    + rewrite IHl. tauto.
    + subst k'. tauto.
    + rewrite IHr. tauto.
Qed.

Lemma BST_insert k v t : BST t -> BST (insert k v t).
Proof.
  induction t as [| k' v' l IHl r IHr]; simpl.
  - intros _. unfold keys. simpl. repeat split; constructor.
  - intros (Fl & Fr & Bl & Br). cmp k k'; simpl.
    + rewrite Forall_keys_insert. auto.
    + auto.
    + rewrite Forall_keys_insert. auto.
Qed.

Lemma search_insert_same k v t : search k (insert k v t) = Some v.
Proof.
  induction t as [| k' v' l IHl r IHr]; simpl.
  - now rewrite key_eqb_refl.
  - destruct (key_eqb k k') eqn:E; simpl.
    + now rewrite E.
    + destruct (key_ltb k k') eqn:L; simpl; now rewrite E, L.
Qed.

Lemma search_insert_other k k' v t :
  k' <> k -> search k' (insert k v t) = search k' t.
Proof.
  intros N. induction t as [| k1 v1 l IHl r IHr]; simpl.
  - apply key_eqb_neq in N. rewrite N. now destruct (key_ltb k' k).
  - destruct (key_eqb k k1) eqn:E; simpl.
    + apply key_eqb_eq in E. subst k1.
      apply key_eqb_neq in N. now rewrite N.
    + destruct (key_ltb k k1); simpl; [rewrite IHl | rewrite IHr]; reflexivity.
Qed.

(** A second [insert] of the same key finds the node of the first one. *)
Lemma insert_insert k v1 v2 t :
  insert k v2 (insert k v1 t) = insert k v2 t.
Proof.
  induction t as [| k' v' l IHl r IHr]; simpl.
  - now rewrite key_eqb_refl.
  - destruct (key_eqb k k') eqn:E; simpl.
    + now rewrite E.
    + destruct (key_ltb k k') eqn:L; simpl; rewrite E, L; congruence.
Qed.

Lemma shape_insert_value k v1 v2 t :
  shape_of (insert k v2 t) = shape_of (insert k v1 t).
Proof.
  induction t as [| k' v' l IHl r IHr]; simpl; [reflexivity |].
  destruct (key_eqb k k'); simpl; [reflexivity |].
  destruct (key_ltb k k'); simpl; congruence.
Qed.

Lemma keys_insert_value k v1 v2 t :
  keys (insert k v2 t) = keys (insert k v1 t).
Proof.
  induction t as [| k' v' l IHl r IHr]; simpl; [reflexivity |].
  destruct (key_eqb k k'); simpl; [now rewrite !keys_node |].
  destruct (key_ltb k k'); simpl; rewrite !keys_node; congruence.
Qed.

Lemma size_shape t1 t2 : shape_of t1 = shape_of t2 -> size t1 = size t2.
Proof.
  revert t2. induction t1 as [| k1 v1 l1 IHl r1 IHr]; intros [| k2 v2 l2 r2];
    simpl; try discriminate; [reflexivity |].
  intros E. injection E as El Er. now rewrite (IHl _ El), (IHr _ Er).
Qed.

(** After [insert k v] on a search tree, [(k, v)] is the only binding of
    [k]. *)
Lemma with_key_insert k v t :
  BST t -> with_key k (bindings (insert k v t)) = [(k, v)].
Proof.
  induction t as [| k' v' l IHl r IHr]; simpl.
  - intros _. now rewrite key_eqb_refl.
  - intros (Fl & Fr & Bl & Br).
    cmp k k'; simpl; rewrite with_key_app; simpl.
    + rewrite IHl by assumption.
      rewrite (key_eqb_sym k' k).
      destruct (compare_keysP k k'); try order. simpl.
      rewrite with_key_notin; [reflexivity |].
      apply (notin_above Fr). now right.
    + subst k'. rewrite key_eqb_refl.
      rewrite (@with_key_notin k (bindings l)), (@with_key_notin k (bindings r)).
      * reflexivity.
      * apply (notin_above Fr). now left.
      * apply (notin_below Fl). now left.
    + rewrite IHr by assumption.
      rewrite (key_eqb_sym k' k).
      destruct (compare_keysP k k'); try order. simpl.
      rewrite with_key_notin; [reflexivity |].
      apply (notin_below Fl). now right.
Qed.

(** ** [_delete] *)

Lemma _delete_lt k v l r target :
  key_lt target k ->
  _delete (Node k v l r) target =
  (Node k v (fst (_delete l target)) r, snd (_delete l target)).
Proof.
  intros H. simpl. cmp target k. now destruct (_delete l target).
Qed.

Lemma _delete_gt k v l r target :
  key_lt k target ->
  _delete (Node k v l r) target =
  (Node k v l (fst (_delete r target)), snd (_delete r target)).
Proof.
  intros H. simpl. cmp target k. now destruct (_delete r target).
Qed.

Lemma _delete_two_children k v lk lv ll lr rk rv rl rr :
  _delete (Node k v (Node lk lv ll lr) (Node rk rv rl rr)) k =
  (Node (fst (successor rk rv rl)) (snd (successor rk rv rl))
        (Node lk lv ll lr)
        (fst (_delete (Node rk rv rl rr) (fst (successor rk rv rl)))),
   true).
Proof.
  cbn [_delete]. cmp k k.
  destruct (successor rk rv rl) as [sk sv]. cbn [fst snd].
  match goal with |- (let (_, _) := ?e in _) = _ => now destruct e end.
Qed.

Lemma _delete_trace_lt k v l r target :
  key_lt target k ->
  _delete_trace (Node k v l r) target = _delete_trace l target.
Proof. intros H. simpl. now cmp target k. Qed.

Lemma _delete_trace_two_children k v lk lv ll lr rk rv rl rr :
  _delete_trace (Node k v (Node lk lv ll lr) (Node rk rv rl rr)) k =
  TwoChildrenCase
    :: _delete_trace (Node rk rv rl rr) (fst (successor rk rv rl)).
Proof.
  cbn [_delete_trace]. cmp k k. now destruct (successor rk rv rl).
Qed.

(** The trace starts with [NotFound] exactly when [_delete] returns
    [False]. *)
Lemma _delete_trace_flag t k :
  snd (_delete t k) = false <-> _delete_trace t k = [NotFound].
Proof.
  induction t as [| k' v' l IHl r IHr]; [simpl; tauto |].
  destruct (compare_keysP k k') as [L | E | G].
  - rewrite _delete_lt, _delete_trace_lt by exact L. exact IHl.
  - subst k'. destruct l, r;
      [simpl; cmp k k; split; discriminate ..
      | rewrite _delete_two_children, _delete_trace_two_children;
        split; discriminate].
  - simpl. cmp k k'. destruct (_delete r k). exact IHr.
Qed.

(** The loop of [successor] stops at the leftmost node. *)
Lemma successor_leftmost k v l r :
  leftmost (Node k v l r) = Some (successor k v l).
Proof.
  revert k v r. induction l as [| k' v' l' IHl r' _]; intros k v r.
  - reflexivity.
  - change (leftmost (Node k v (Node k' v' l' r') r))
      with (leftmost (Node k' v' l' r')).
    rewrite IHl. reflexivity.
Qed.

(** Deleting the successor's key from the subtree the successor was found in:
    the leftmost node is taken out, through the branch for a node without
    children or the branch for a node with one child. *)
Lemma successor_delete k v l r :
  BST (Node k v l r) ->
  let s := successor k v l in
  bindings (Node k v l r) = s :: bindings (fst (_delete (Node k v l r) (fst s)))
  /\ snd (_delete (Node k v l r) (fst s)) = true
  /\ (_delete_trace (Node k v l r) (fst s) = [LeafCase]
      \/ _delete_trace (Node k v l r) (fst s) = [OneChildCase]).
Proof.
  revert k v r. induction l as [| k' v' l' IHl r' _]; intros k v r B.
  - simpl. cmp k k. destruct r; simpl; auto.
  - destruct B as (Fl & Fr & Bl & Br).
    specialize (IHl k' v' r' Bl).
    change (successor k v (Node k' v' l' r')) with (successor k' v' l').
    cbv zeta in *. set (s := successor k' v' l') in *.
    destruct IHl as (Eb & Ef & Ec).
    assert (L : key_lt (fst s) k).
    { rewrite Forall_forall in Fl. apply Fl. unfold keys. rewrite Eb.
      now left. }
    rewrite _delete_lt, _delete_trace_lt by exact L.
    cbn [fst snd]. repeat split; try assumption.
    cbn [bindings] in *. rewrite Eb at 1. reflexivity.
Qed.

(** On a search tree, [_delete] removes the binding of the target from the
    in-order bindings and leaves the others as they are. *)
Lemma bindings_delete k t :
  BST t -> bindings (fst (_delete t k)) = without_key k (bindings t).
Proof.
  induction t as [| k' v' l IHl r IHr]; [reflexivity |].
  intros B. pose proof B as (Fl & Fr & Bl & Br).
  change (bindings (Node k' v' l r)) with (bindings l ++ (k', v') :: bindings r).
  rewrite without_key_app, without_key_cons.
  destruct (compare_keysP k' k) as [L | E | G].
  - rewrite _delete_gt by exact L. cbn [fst bindings].
    rewrite <- IHr by assumption.
    rewrite without_key_notin; [reflexivity |].
    apply (notin_below Fl). now right.
  - subst k'.
    rewrite (@without_key_notin k (bindings l)) by
        (apply (notin_below Fl); now left).
    rewrite (@without_key_notin k (bindings r)) by
        (apply (notin_above Fr); now left).
    destruct l as [| lk lv ll lr], r as [| rk rv rl rr].
    + simpl. now cmp k k.
    + simpl. now cmp k k.
    + simpl. cmp k k. simpl. now rewrite app_nil_r.
    + rewrite _delete_two_children. cbn [fst].
      destruct (successor_delete Br) as (Eb & _).
      cbv zeta in Eb. rewrite Eb. cbn [bindings].
      now destruct (successor rk rv rl).
  - rewrite _delete_lt by exact G. cbn [fst bindings].
    rewrite <- IHl by assumption.
    rewrite (@without_key_notin k (bindings r)); [reflexivity |].
    apply (notin_above Fr). now right.
Qed.

Lemma keys_delete k t :
  BST t ->
  keys (fst (_delete t k)) = filter (fun x => negb (key_eqb x k)) (keys t).
Proof.
  intros B. unfold keys. rewrite bindings_delete by exact B.
  apply map_fst_without.
Qed.

Lemma BST_delete k t : BST t -> BST (fst (_delete t k)).
Proof.
  intros B. apply BST_ascending. rewrite keys_delete by exact B.
  now apply ascending_filter, BST_ascending.
Qed.

(** A key that no node holds: the descent ends at [None], and every
    reference is written back as it was. *)
Lemma _delete_not_found k t : ~ In k (keys t) -> _delete t k = (t, false).
Proof.
  induction t as [| k' v' l IHl r IHr]; [reflexivity |].
  rewrite keys_node, in_app_iff. simpl. intros N.
  cmp k k'.
  - rewrite IHl by tauto. reflexivity.
  - elim N. auto.
  - rewrite IHr by tauto. reflexivity.
Qed.

Lemma _delete_found k t :
  BST t -> In k (keys t) -> snd (_delete t k) = true.
Proof.
  induction t as [| k' v' l IHl r IHr]; [intros _ [] |].
  intros (Fl & Fr & Bl & Br). rewrite keys_node, in_app_iff. cbn [In]. intros I.
  destruct (compare_keysP k k') as [L | E | G].
  - rewrite _delete_lt by exact L. cbn [snd]. apply IHl; [assumption |].
    destruct I as [I | [E | I]]; [assumption | order |].
    elim (notin_above (k:=k) Fr); auto.
  - subst k'.
    destruct l, r; [simpl; now cmp k k .. | now rewrite _delete_two_children].
  - rewrite _delete_gt by exact G. cbn [snd]. apply IHr; [assumption |].
    destruct I as [I | [E | I]]; [| order | assumption].
    elim (notin_below (k:=k) Fl); auto.
Qed.

(** ** [_height] and [_check] *)

Lemma _height_nonneg t : (0 <= _height t)%Z.
Proof. induction t as [| k v l IHl r IHr]; cbn [_height]; lia. Qed.

Lemma _check_height t : fst (_check t) = _height t.
Proof.
  induction t as [| k v l IHl r IHr]; simpl; [reflexivity |].
  destruct (_check l) as [hl bl], (_check r) as [hr br]. simpl in *.
  now subst.
Qed.

Lemma _check_balanced t : snd (_check t) = true <-> balanced_spec t.
Proof.
  induction t as [| k v l IHl r IHr]; simpl; [tauto |].
  pose proof (_check_height l) as Hl. pose proof (_check_height r) as Hr.
  destruct (_check l) as [hl bl], (_check r) as [hr br]. simpl in *.
  subst hl hr. rewrite !andb_true_iff, Z.leb_le, IHl, IHr. tauto.
Qed.

Lemma list_max_map_S (xs : list nat) :
  xs <> [] -> list_max (map S xs) = S (list_max xs).
Proof.
  induction xs as [| a xs IH]; [congruence | intros _].
  destruct xs as [| b xs].
  - simpl. lia.
  - change (list_max (map S (a :: b :: xs)))
      with (Nat.max (S a) (list_max (map S (b :: xs)))).
    rewrite IH by discriminate.
    change (list_max (a :: b :: xs)) with (Nat.max a (list_max (b :: xs))).
    lia.
Qed.

Lemma paths_inner k v l r :
  l <> Leaf \/ r <> Leaf ->
  paths (Node k v l r) = map (cons k) (paths l ++ paths r).
Proof. destruct l, r; intros [N | N]; solve [reflexivity | now elim N]. Qed.

Lemma paths_nil t : paths t = [] -> t = Leaf.
Proof.
  induction t as [| k v l IHl r IHr]; [reflexivity |].
  intros E. exfalso.
  assert (N : l <> Leaf \/ r <> Leaf).
  { destruct l, r; try discriminate E; [right | left | left]; discriminate. }
  rewrite (paths_inner k v N) in E.
  apply map_eq_nil, app_eq_nil in E. destruct E as [El Er].
  destruct N as [N | N]; apply N; auto.
Qed.

Lemma _height_paths t :
  _height t = Z.of_nat (list_max (map (@length K) (paths t))).
Proof.
  induction t as [| k v l IHl r IHr]; [reflexivity |].
  destruct l as [| lk lv ll lr] eqn:El, r as [| rk rv rl rr] eqn:Er;
    [reflexivity | | |];
    rewrite <- El, <- Er in *;
    (rewrite paths_inner by (subst; (left; discriminate) || (right; discriminate)));
    cbn [_height]; rewrite IHl, IHr, map_map; cbn [length];
    rewrite <- (map_map (@length K) S), list_max_map_S, map_app, list_max_app;
    try lia;
    intros E; apply map_eq_nil, app_eq_nil in E; destruct E as [E1 E2];
    apply paths_nil in E1, E2; subst; discriminate.
Qed.

Lemma _height_le_size t : (_height t <= Z.of_nat (size t))%Z.
Proof.
  induction t as [| k v l IHl r IHr]; cbn [_height size]; [lia |].
  pose proof (_height_nonneg l). pose proof (_height_nonneg r). lia.
Qed.

Lemma size_lt_pow2_height t : (Z.of_nat (size t) + 1 <= 2 ^ _height t)%Z.
Proof.
  induction t as [| k v l IHl r IHr]; cbn [_height size]; [simpl; lia |].
  pose proof (_height_nonneg l) as Hl. pose proof (_height_nonneg r) as Hr.
  set (m := Z.max (_height l) (_height r)).
  assert (Pl : (2 ^ _height l <= 2 ^ m)%Z) by (apply Z.pow_le_mono_r; lia).
  assert (Pr : (2 ^ _height r <= 2 ^ m)%Z) by (apply Z.pow_le_mono_r; lia).
  replace (1 + m)%Z with (Z.succ m) by lia.
  rewrite Z.pow_succ_r by lia. lia.
Qed.

(** [ceil_log2 n] is the least exponent whose power of two reaches [n]. *)
Lemma ceil_log2_least n h :
  (0 < n)%Z -> (ceil_log2 n <= h)%Z <-> (n <= 2 ^ h)%Z.
Proof. intros P. unfold ceil_log2. symmetry. now apply Z.log2_up_le_pow2. Qed.

Lemma ceil_log2_le n h : (0 < n)%Z -> (n <= 2 ^ h)%Z -> (ceil_log2 n <= h)%Z.
Proof. intros P L. now apply ceil_log2_least. Qed.

(** ** Sequences of calls *)

Lemma insert_all_snoc kvs k v t :
  insert_all (kvs ++ [(k, v)]) t = insert k v (insert_all kvs t).
Proof. unfold insert_all. now rewrite fold_left_app. Qed.

Lemma search_insert_all k kvs t :
  search k (insert_all kvs t) =
  match last_inserted k kvs with Some v => Some v | None => search k t end.
Proof.
  unfold last_inserted.
  induction kvs as [| [k1 v1] kvs IH] using rev_ind; [reflexivity |].
  rewrite insert_all_snoc, rev_app_distr. simpl.
  destruct (key_eqb k k1) eqn:E.
  - apply key_eqb_eq in E. subst k1. apply search_insert_same.
  - apply key_eqb_neq in E. rewrite search_insert_other by exact E. exact IH.
Qed.

Lemma lookup_unique k v kvs :
  NoDup (map fst kvs) -> In (k, v) kvs -> lookup k kvs = Some v.
Proof.
  induction kvs as [| [k1 v1] kvs IH]; simpl; [tauto |].
  intros ND I. inversion ND as [| ? ? N ND']; subst.
  destruct I as [E | I].
  - injection E as -> ->. now rewrite key_eqb_refl.
  - destruct (key_eqb k k1) eqn:E; [| now apply IH].
    apply key_eqb_eq in E. subst k1. elim N.
    change k with (fst (k, v)). now apply in_map.
Qed.

Lemma BST_run (ops : list (operation K V)) t : BST t -> BST (run ops t).
Proof.
  unfold run. revert t.
  induction ops as [| [k v | k] ops IH]; intros t B; simpl; [assumption | |];
    apply IH.
  - now apply BST_insert.
  - now apply BST_delete.
Qed.

(** * The properties of the specification *)

(** C1. Every tree obtained from the empty tree by a sequence of [insert]
    and [delete] calls satisfies the BST ordering: at every node the keys of
    the left subtree are strictly smaller and those of the right subtree
    strictly greater.  For any tree this is the same as the in-order
    traversal being strictly ascending, and it implies that no two nodes
    have the same key. *)
Theorem bst_ordering_invariant :
  (forall ops : list (operation K V),
      BST (run ops Leaf)
      /\ ascending (keys (run ops Leaf))
      /\ NoDup (keys (run ops Leaf)))
  /\ (forall t, BST t <-> ascending (keys t))
  /\ (forall t, ascending (keys t) -> NoDup (keys t)).
Proof.
  split; [| split].
  - intros ops.
    assert (B : BST (run ops (Leaf : tree K V))) by (apply BST_run; exact I).
    split; [exact B |]. split.
    + now apply BST_ascending.
    + now apply BST_NoDup.
  - apply BST_ascending.
  - intros t. apply ascending_NoDup.
Qed.

(** C2. On a search tree that holds key [k], [delete k] returns [True],
    [search k] is absent afterwards, and the number of nodes has gone down
    by one. *)
Theorem delete_present t k :
  BST t -> In k (keys t) ->
  snd (delete k t) = true
  /\ search k (fst (delete k t)) = None
  /\ Z.of_nat (size (fst (delete k t))) = (Z.of_nat (size t) - 1)%Z.
Proof.
  intros B I. unfold delete. split; [| split].
  - now apply _delete_found.
  - rewrite search_lookup by now apply BST_delete.
    rewrite bindings_delete by exact B. apply lookup_without_same.
  - rewrite !size_bindings, bindings_delete by exact B.
    rewrite <- (@length_without_key k (bindings t)).
    + lia.
    + now apply BST_NoDup.
    + exact I.
Qed.

(** C3. Right after [insert k v], [search k] returns [v], on every tree and
    so on every search tree.  After any sequence [kvs] of insertions into
    the empty tree, [search] returns for every key the value of its last
    insertion; when the inserted keys are distinct, that is the value of the
    one pair of [kvs] with that key; and a key that was never inserted is
    absent, also when nothing was inserted at all. *)
Theorem search_after_insert :
  (forall t k v, search k (insert k v t) = Some v)
  /\ (forall kvs k v,
         NoDup (map fst kvs) -> In (k, v) kvs ->
         search k (insert_all kvs Leaf) = Some v)
  /\ (forall kvs k,
         ~ In k (map fst kvs) -> search k (insert_all kvs Leaf) = None)
  /\ (forall kvs k, search k (insert_all kvs Leaf) = last_inserted k kvs).
Proof.
  assert (G : forall kvs k,
             search k (insert_all kvs Leaf) = last_inserted k kvs).
  { intros kvs k. rewrite search_insert_all. simpl.
    now destruct (last_inserted k kvs). }
  split; [intros t k v; apply search_insert_same |].
  split; [| split; [| exact G]].
  - intros kvs k v ND I. rewrite G. unfold last_inserted.
    apply lookup_unique.
    + rewrite map_rev. now apply NoDup_rev.
    + now apply in_rev in I.
  - intros kvs k N. rewrite G. unfold last_inserted.
    apply lookup_notin. rewrite map_rev, <- in_rev. exact N.
Qed.

(** C4. When no node holds [k], [delete k] returns [False] and the tree is
    the same tree: same height, same balance result, same result of every
    search.  (This needs no ordering of the tree.) *)
Theorem delete_absent t k :
  ~ In k (keys t) ->
  delete k t = (t, false)
  /\ height (fst (delete k t)) = height t
  /\ is_balanced (fst (delete k t)) = is_balanced t
  /\ (forall k', search k' (fst (delete k t)) = search k' t).
Proof.
  intros N. unfold delete. rewrite (_delete_not_found _ _ N). simpl. auto.
Qed.

(** C5. At a node of a search tree that holds the target and has two
    children, [_delete] writes the key and value of the in-order successor,
    the leftmost node of the right subtree, into the node and deletes the
    successor's key from the right subtree.  That inner call removes exactly
    the successor, and it goes through the branch for no child or the branch
    for one child and not through the two-children branch: the successor has
    no left child. *)
Theorem delete_two_children k v lk lv ll lr rk rv rl rr :
  let l := Node lk lv ll lr in
  let r := Node rk rv rl rr in
  let s := successor rk rv rl in
  BST (Node k v l r) ->
  leftmost r = Some s
  /\ _delete (Node k v l r) k =
     (Node (fst s) (snd s) l (fst (_delete r (fst s))), true)
  /\ bindings r = s :: bindings (fst (_delete r (fst s)))
  /\ snd (_delete r (fst s)) = true
  /\ _delete_trace (Node k v l r) k = TwoChildrenCase :: _delete_trace r (fst s)
  /\ (_delete_trace r (fst s) = [LeafCase]
      \/ _delete_trace r (fst s) = [OneChildCase])
  /\ ~ In TwoChildrenCase (_delete_trace r (fst s)).
Proof.
  intros l r s (Fl & Fr & Bl & Br).
  destruct (successor_delete Br) as (Eb & Ef & Ec). fold r s in Eb, Ef, Ec.
  split; [apply successor_leftmost |].
  split; [apply _delete_two_children |].
  split; [assumption |]. split; [assumption |].
  split; [apply _delete_trace_two_children |].
  split; [assumption |].
  destruct Ec as [E | E]; rewrite E; simpl; intros [H | []]; discriminate.
Qed.

(** C6. On a search tree, [insert k v1] followed by [insert k v2] leaves
    one binding of [k], with value [v2]; the second call changes neither the
    shape of the tree, nor the number of nodes, nor the keys. *)
Theorem insert_twice t k v1 v2 :
  BST t ->
  let t1 := insert k v1 t in
  let t2 := insert k v2 t1 in
  with_key k (bindings t2) = [(k, v2)]
  /\ search k t2 = Some v2
  /\ shape_of t2 = shape_of t1
  /\ size t2 = size t1
  /\ keys t2 = keys t1.
Proof.
  intros B t1 t2. subst t1 t2. rewrite insert_insert.
  split; [now apply with_key_insert |].
  split; [apply search_insert_same |].
  split; [apply shape_insert_value |].
  split; [apply size_shape, shape_insert_value | apply keys_insert_value].
Qed.

(** C7. [is_balanced] agrees with the balance condition stated with
    recomputed heights: it returns [True] exactly when at every node the
    heights of the two subtrees differ by at most 1; and the height that
    [_check] returns for a subtree is the one [_height] returns. *)
Theorem is_balanced_correct t :
  (is_balanced t = true <-> balanced_spec t)
  /\ fst (_check t) = height t.
Proof. split; [apply _check_balanced | apply _check_height]. Qed.

(** C8. [height] is the number of nodes on the longest root-to-leaf path;
    it is 0 for the empty tree, 1 for a single node, and
    [1 + max (height left) (height right)] at a node. *)
Theorem height_longest_path :
  (forall t, height t = Z.of_nat (list_max (map (@length K) (paths t))))
  /\ height (Leaf : tree K V) = 0%Z
  /\ (forall k v, height (Node k v Leaf Leaf) = 1%Z)
  /\ (forall k v l r,
         height (Node k v l r) = (1 + Z.max (height l) (height r))%Z).
Proof.
  split; [exact _height_paths |]. repeat split.
Qed.

(** C9. The height of a tree with [n] nodes is at least
    [ceil (log2 (n + 1))] and at most [n]. *)
Theorem height_bounds t :
  let n := Z.of_nat (size t) in
  (ceil_log2 (n + 1) <= height t <= n)%Z.
Proof.
  intros n. subst n. unfold height. split.
  - apply ceil_log2_le; [lia | apply size_lt_pow2_height].
  - apply _height_le_size.
Qed.

(** C10. On a search tree, [delete k] does not change the result of
    [search k'] for any other key [k']. *)
Theorem delete_frame t k k' :
  BST t -> k' <> k -> search k' (fst (delete k t)) = search k' t.
Proof.
  intros B N. unfold delete.
  rewrite search_lookup by now apply BST_delete.
  rewrite bindings_delete, lookup_without_other by assumption.
  symmetry. now apply search_lookup.
Qed.

End Proofs.

(** * Further properties of the operations *)

Section More.

Context {K V : Type} `{KO : KeyOrder K}.

Implicit Types (t l r : tree K V) (k : K) (v : V) (kvs : list (K * V)).

(** ** [insert] *)

(** X2. [insert k v] does not change what [search] returns for any other
    key, on any tree. *)
Theorem insert_frame t k k' v :
  k' <> k -> search k' (insert k v t) = search k' t.
Proof. apply search_insert_other. Qed.


Lemma insert_found k v t : search k t = Some v -> insert k v t = t.
Proof.
  induction t as [| k' v' l IHl r IHr]; simpl; [discriminate |].
  destruct (key_eqb k k').
  - intros E. injection E as ->. reflexivity.
  - destruct (key_ltb k k'); intros E; [rewrite IHl | rewrite IHr]; auto.
Qed.


(** X17. [insert k v] leaves the bindings of all other keys where they
    are: the in-order bindings without those of [k] are the same before and
    after, on any tree. *)
Theorem insert_other_bindings t k v :
  without_key k (bindings (insert k v t)) = without_key k (bindings t).
Proof.
  induction t as [| k' v' l IHl r IHr]; cbn [insert bindings app].
  - rewrite without_key_cons, key_eqb_refl. reflexivity.
  - destruct (key_eqb k k') eqn:E; cbn [bindings].
    + rewrite !without_key_app, !without_key_cons.
      rewrite key_eqb_sym, E. reflexivity.
    + destruct (key_ltb k k'); cbn [bindings];
        rewrite !without_key_app, !without_key_cons, ?IHl, ?IHr;
        reflexivity.
Qed.

(** X10. [insert] never lowers the height and raises it by at most one. *)
Theorem insert_height t k v :
  (height t <= height (insert k v t) <= height t + 1)%Z.
Proof.
  unfold height.
  induction t as [| k' v' l IHl r IHr]; cbn [insert _height]; [lia |].
  destruct (key_eqb k k'); cbn [_height]; [lia |].
  destruct (key_ltb k k'); cbn [_height]; lia.
Qed.

Lemma _check_shape t1 t2 : shape_of t1 = shape_of t2 -> _check t1 = _check t2.
Proof.
  revert t2. induction t1 as [| k1 v1 l1 IHl r1 IHr]; intros [| k2 v2 l2 r2];
    simpl; try discriminate; [reflexivity |].
  intros E. injection E as El Er. now rewrite (IHl _ El), (IHr _ Er).
Qed.

(** X19. [insert] on a key that [search] finds only overwrites a value:
    shape, number of nodes, keys, height and balance result stay the
    same. *)
Theorem overwrite_keeps_shape t k v :
  search k t <> None ->
  shape_of (insert k v t) = shape_of t
  /\ size (insert k v t) = size t
  /\ keys (insert k v t) = keys t
  /\ height (insert k v t) = height t
  /\ is_balanced (insert k v t) = is_balanced t.
Proof.
  intros F. destruct (search k t) as [v0 |] eqn:E; [clear F | now elim F].
  apply insert_found in E.
  assert (S : shape_of (insert k v t) = shape_of t).
  { rewrite <- E at 2. apply shape_insert_value. }
  split; [exact S |].
  split; [now apply size_shape |].
  split; [rewrite <- E at 2; apply keys_insert_value |].
  unfold height, is_balanced.
  rewrite <- !_check_height, (_check_shape _ _ S). auto.
Qed.

(** ** [delete] *)


(** X6. [delete k] returns [True] exactly when [search k] finds a node: both
    walk the same path; on any tree. *)
Theorem delete_flag_search t k :
  snd (delete k t) = match search k t with Some _ => true | None => false end.
Proof.
  unfold delete.
  induction t as [| k' v' l IHl r IHr]; [reflexivity |].
  cbn [search]. destruct (compare_keysP k k') as [L | E | G].
  - rewrite _delete_lt by exact L. exact IHl.
  - subst k'.
    destruct l, r; [simpl; now cmp k k .. | now rewrite _delete_two_children].
  - rewrite _delete_gt by exact G. exact IHr.
Qed.

(** X7. On a search tree, [delete k] takes the binding of [k] out of the
    in-order bindings and keeps all the others, with their values and in
    their order; the result is a search tree again. *)
Theorem delete_bindings t k :
  BST t ->
  bindings (fst (delete k t)) = without_key k (bindings t)
  /\ BST (fst (delete k t)).
Proof.
  intros B. split; [now apply bindings_delete | now apply BST_delete].
Qed.

Lemma notin_keys_delete k t : BST t -> ~ In k (keys (fst (_delete t k))).
Proof.
  intros B. rewrite keys_delete by exact B. intros I.
  apply filter_In in I. destruct I as [_ E].
  now rewrite key_eqb_refl in E.
Qed.

(** X8. On a search tree, a second [delete] of the same key finds nothing:
    it returns [False] and leaves the tree of the first call. *)
Theorem delete_again t k :
  BST t ->
  delete k (fst (delete k t)) = (fst (delete k t), false).
Proof.
  intros B. unfold delete. apply _delete_not_found.
  now apply notin_keys_delete.
Qed.

Lemma without_key_swap k1 k2 kvs :
  without_key k1 (without_key k2 kvs) = without_key k2 (without_key k1 kvs).
Proof.
  induction kvs as [| [k v] kvs IH]; [reflexivity |].
  rewrite !without_key_cons.
  destruct (key_eqb k k1) eqn:E1, (key_eqb k k2) eqn:E2;
    rewrite ?without_key_cons, ?E1, ?E2, IH; reflexivity.
Qed.

(** X9. On a search tree, two deletions leave the same in-order bindings in
    either order. *)
Theorem delete_commutes t k1 k2 :
  BST t ->
  bindings (fst (delete k1 (fst (delete k2 t))))
  = bindings (fst (delete k2 (fst (delete k1 t)))).
Proof.
  intros B. unfold delete.
  rewrite !bindings_delete by (try apply BST_delete; exact B).
  apply without_key_swap.
Qed.

(** X11. [delete] never raises the height and lowers it by at most one, on
    any tree. *)
Theorem delete_height t k :
  (height t - 1 <= height (fst (delete k t)) <= height t)%Z.
Proof.
  unfold height, delete. revert k.
  induction t as [| k' v' l IHl r IHr]; intros k; [simpl; lia |].
  pose proof (_height_nonneg l). pose proof (_height_nonneg r).
  destruct (compare_keysP k k') as [L | E | G].
  - rewrite _delete_lt by exact L. specialize (IHl k).
    cbn [fst _height]. lia.
  - subst k'. destruct l as [| lk lv ll lr], r as [| rk rv rl rr].
    + simpl. cmp k k. simpl. lia.
    + simpl (fst _). cmp k k. cbn [fst _height] in *. lia.
    + simpl (fst _). cmp k k. cbn [fst _height] in *. lia.
    + rewrite _delete_two_children.
      specialize (IHr (fst (successor rk rv rl))).
      cbn [fst]. cbn [_height] in *. lia.
  - rewrite _delete_gt by exact G. specialize (IHr k).
    cbn [fst _height]. lia.
Qed.

(** X18. In a search tree, the node that the successor loop stops at holds
    the smallest key of the right subtree, which is greater than the key of
    the node being deleted, and [search] finds it there with its value. *)
Theorem successor_minimum k v l rk rv rl rr :
  let r := Node rk rv rl rr in
  let s := successor rk rv rl in
  BST (Node k v l r) ->
  key_lt k (fst s)
  /\ In (fst s) (keys r)
  /\ (forall x, In x (keys r) -> x = fst s \/ key_lt (fst s) x)
  /\ search (fst s) r = Some (snd s).
Proof.
  intros r s (Fl & Fr & Bl & Br).
  destruct (successor_delete Br) as (Eb & _). fold r s in Eb.
  assert (Ek : keys r = fst s :: keys (fst (_delete r (fst s)))).
  { unfold keys. now rewrite Eb. }
  assert (I : In (fst s) (keys r)) by (rewrite Ek; now left).
  split; [rewrite Forall_forall in Fr; now apply Fr |].
  split; [exact I |]. split.
  - apply BST_ascending in Br. fold r in Br. rewrite Ek in *.
    inversion Br as [| ? ? _ F]; subst. rewrite Forall_forall in F.
    intros x [E | Ix]; [now left | right; now apply F].
  - rewrite search_lookup by exact Br. fold r. rewrite Eb.
    destruct s as [sk sv]. simpl. now rewrite key_eqb_refl.
Qed.

(** ** The tree as a finite map *)



(** Association lists with ascending keys that agree on every lookup are
    equal. *)
Lemma lookup_ext kvs1 kvs2 :
  ascending (map fst kvs1) -> ascending (map fst kvs2) ->
  (forall k, lookup k kvs1 = lookup k kvs2) -> kvs1 = kvs2.
Proof.
  unfold ascending. revert kvs2.
  induction kvs1 as [| [k1 v1] kvs1 IH]; intros [| [k2 v2] kvs2] S1 S2 H.
  - reflexivity.
  - specialize (H k2). simpl in H. now rewrite key_eqb_refl in H.
  - specialize (H k1). simpl in H. now rewrite key_eqb_refl in H.
  - simpl in S1, S2.
    inversion S1 as [| ? ? S1' F1]; inversion S2 as [| ? ? S2' F2]; subst.
    destruct (compare_keysP k1 k2) as [L | E | G].
    + specialize (H k1). simpl in H. rewrite key_eqb_refl in H.
      destruct (compare_keysP k1 k2); try order.
      rewrite (@lookup_notin _ _ _ k1 kvs2) in H; [discriminate |].
      apply (notin_above F2). now right.
    + subst k2. pose proof (H k1) as H1. simpl in H1.
      rewrite key_eqb_refl in H1. injection H1 as ->.
      f_equal. apply IH; try assumption.
      intros k. specialize (H k). simpl in H.
      destruct (key_eqb k k1) eqn:E; [| exact H].
      apply key_eqb_eq in E. subst k.
      rewrite !lookup_notin; [reflexivity | |];
        [apply (notin_above F2) | apply (notin_above F1)]; now left.
    + specialize (H k2). simpl in H. rewrite key_eqb_refl in H.
      destruct (compare_keysP k2 k1); try order.
      rewrite (@lookup_notin _ _ _ k2 kvs1) in H; [discriminate |].
      apply (notin_above F1). now right.
Qed.

Lemma bindings_ext t1 t2 :
  BST t1 -> BST t2 -> (forall k, search k t1 = search k t2) ->
  bindings t1 = bindings t2.
Proof.
  intros B1 B2 H. apply lookup_ext.
  - now apply BST_ascending.
  - now apply BST_ascending.
  - intros k. rewrite <- !search_lookup by assumption. apply H.
Qed.


(** X15. On a search tree, insertions of two different keys leave the same
    in-order bindings in either order. *)
Theorem insert_commutes t k1 v1 k2 v2 :
  BST t -> k1 <> k2 ->
  bindings (insert k1 v1 (insert k2 v2 t))
  = bindings (insert k2 v2 (insert k1 v1 t)).
Proof.
  intros B N. apply bindings_ext; try (now repeat apply BST_insert).
  intros k.
  destruct (key_eqb k k1) eqn:E1; [apply key_eqb_eq in E1; subst k |].
  - rewrite search_insert_same, search_insert_other by exact N.
    now rewrite search_insert_same.
  - apply key_eqb_neq in E1. rewrite search_insert_other by exact E1.
    destruct (key_eqb k k2) eqn:E2; [apply key_eqb_eq in E2; subst k |].
    + now rewrite !search_insert_same.
    + apply key_eqb_neq in E2.
      now rewrite !search_insert_other by assumption.
Qed.

Lemma search_delete k k' t :
  BST t ->
  search k' (fst (_delete t k)) = if key_eqb k' k then None else search k' t.
Proof.
  intros B. rewrite search_lookup by now apply BST_delete.
  rewrite bindings_delete by exact B.
  destruct (key_eqb k' k) eqn:E.
  - apply key_eqb_eq in E. subst. apply lookup_without_same.
  - apply key_eqb_neq in E. rewrite lookup_without_other by exact E.
    symmetry. now apply search_lookup.
Qed.

Lemma search_insert k k' v t :
  search k' (insert k v t) = if key_eqb k' k then Some v else search k' t.
Proof.
  destruct (key_eqb k' k) eqn:E.
  - apply key_eqb_eq in E. subst. apply search_insert_same.
  - apply key_eqb_neq in E. now apply search_insert_other.
Qed.

(** X1. After any sequence of [insert] and [delete] calls on the empty
    tree, [search] returns for every key what the same sequence of updates
    and removals leaves in a finite map that starts empty. *)
Theorem run_refines_map (ops : list (operation K V)) k :
  search k (run ops Leaf) = model_run ops (fun _ => None) k.
Proof.
  unfold run, model_run. revert k.
  induction ops as [| o ops IH] using rev_ind; intros k; [reflexivity |].
  rewrite !fold_left_app. cbn [fold_left].
  assert (B : BST (fold_left apply_op ops (Leaf : tree K V))).
  { apply (BST_run ops). exact I. }
  destruct o as [key value | key]; cbn [apply_op model_op].
  - rewrite search_insert. unfold model_insert. now rewrite IH.
  - unfold delete. rewrite search_delete by exact B.
    unfold model_delete. now rewrite IH.
Qed.

(** ** Height and balance *)

Lemma balanced_size t :
  balanced_spec t -> (2 ^ (_height t / 2) <= Z.of_nat (size t) + 1)%Z.
Proof.
  induction t as [| k v l IHl r IHr]; [intros _; simpl; lia |].
  cbn [balanced_spec _height size]. intros (D & Bl & Br).
  specialize (IHl Bl). specialize (IHr Br).
  pose proof (_height_nonneg l) as Hl. pose proof (_height_nonneg r) as Hr.
  set (m := Z.max (_height l) (_height r)) in *.
  destruct (Z.eq_dec m 0) as [E | N].
  - rewrite E. simpl. lia.
  - assert (Hm : (1 <= m)%Z) by lia.
    assert (Dl : ((m - 1) / 2 <= _height l / 2)%Z)
      by (apply Z.div_le_mono; lia).
    assert (Dr : ((m - 1) / 2 <= _height r / 2)%Z)
      by (apply Z.div_le_mono; lia).
    assert (P : (0 <= (m - 1) / 2)%Z) by (apply Z.div_pos; lia).
    assert (Pl : (2 ^ ((m - 1) / 2) <= 2 ^ (_height l / 2))%Z)
      by (apply Z.pow_le_mono_r; lia).
    assert (Pr : (2 ^ ((m - 1) / 2) <= 2 ^ (_height r / 2))%Z)
      by (apply Z.pow_le_mono_r; lia).
    replace ((1 + m) / 2)%Z with (Z.succ ((m - 1) / 2)).
    + rewrite Z.pow_succ_r by exact P. lia.
    + replace (1 + m)%Z with (m - 1 + 1 * 2)%Z by lia.
      rewrite Z.div_add by lia. lia.
Qed.

(** X12. A tree that [is_balanced] reports balanced has logarithmic height:
    with [n] nodes and height [h], [2 ^ (h / 2) <= n + 1], so
    [h <= 2 * log2 (n + 1) + 1]. *)
Theorem balanced_height_log t :
  is_balanced t = true ->
  (2 ^ (height t / 2) <= Z.of_nat (size t) + 1)%Z
  /\ (height t <= 2 * Z.log2 (Z.of_nat (size t) + 1) + 1)%Z.
Proof.
  intros B. apply _check_balanced, balanced_size in B. unfold height.
  split; [exact B |].
  pose proof (_height_nonneg t) as H.
  apply Z.log2_le_pow2 in B; [| lia].
  pose proof (Z.div_mod (_height t) 2 ltac:(lia)) as DM.
  pose proof (Z.mod_pos_bound (_height t) 2 ltac:(lia)). lia.
Qed.

Lemma insert_chain k v kvs :
  Forall (fun x => key_lt x k) (map fst kvs) ->
  insert k v (chain kvs) = chain (kvs ++ [(k, v)]).
Proof.
  induction kvs as [| [k1 v1] kvs IH]; simpl; intros F; [reflexivity |].
  inversion F; subst. cmp k k1. now rewrite IH.
Qed.

Lemma insert_all_chain kvs :
  ascending (map fst kvs) -> insert_all kvs Leaf = chain kvs.
Proof.
  induction kvs as [| [k v] kvs IH] using rev_ind; [reflexivity |].
  rewrite map_app. simpl. intros A.
  apply ascending_app in A. destruct A as (F & _ & A & _).
  rewrite insert_all_snoc, IH by exact A. now apply insert_chain.
Qed.

Lemma _check_chain kvs :
  _check (chain kvs) = (Z.of_nat (length kvs), (length kvs <=? 2)%nat).
Proof.
  induction kvs as [| [k v] kvs IH]; [reflexivity |].
  cbn [chain _check length]. rewrite IH.
  destruct (length kvs) as [| [| [| n]]]; try reflexivity.
  cbn [Nat.leb andb]. f_equal. lia.
Qed.

(** X13. Inserting pairs with strictly ascending keys into the empty tree
    builds a chain of right children: the height is the number of pairs,
    and the tree is reported balanced only when there are at most two. *)
Theorem sorted_insertion_chain kvs :
  ascending (map fst kvs) ->
  insert_all kvs Leaf = chain kvs
  /\ height (insert_all kvs Leaf) = Z.of_nat (length kvs)
  /\ is_balanced (insert_all kvs Leaf) = (length kvs <=? 2)%nat.
Proof.
  intros A. rewrite insert_all_chain by exact A.
  split; [reflexivity |].
  unfold height, is_balanced. rewrite <- _check_height, _check_chain.
  split; reflexivity.
Qed.

(** ** Rebuilding a tree *)

Lemma insert_all_node kvs k v a b :
  Forall (fun kv => fst kv <> k) kvs ->
  insert_all kvs (Node k v a b) =
  Node k v
       (insert_all (filter (fun kv => key_ltb (fst kv) k) kvs) a)
       (insert_all (filter (fun kv => negb (key_ltb (fst kv) k)) kvs) b).
Proof.
  revert a b. induction kvs as [| [k1 v1] kvs IH]; intros a b F;
    [reflexivity |].
  inversion F as [| ? ? N F']; subst. simpl in N.
  unfold insert_all in *. cbn [fold_left filter fst snd insert].
  destruct (compare_keysP k1 k) as [L | E | G]; [| contradiction |];
    cbn [negb fold_left fst snd]; now rewrite IH.
Qed.

Lemma Forall_preorder (P : K -> Prop) t :
  Forall P (keys t) -> Forall (fun kv => P (fst kv)) (preorder t).
Proof.
  induction t as [| k v l IHl r IHr]; [constructor |].
  rewrite Forall_keys_node. intros (Fl & Pk & Fr). cbn [preorder].
  constructor; [exact Pk |]. apply Forall_app. auto.
Qed.

Lemma filter_all (A : Type) (f : A -> bool) (xs : list A) :
  Forall (fun x => f x = true) xs -> filter f xs = xs.
Proof.
  induction 1 as [| x xs E _ IH]; simpl; [reflexivity |].
  now rewrite E, IH.
Qed.

Lemma filter_none (A : Type) (f : A -> bool) (xs : list A) :
  Forall (fun x => f x = false) xs -> filter f xs = [].
Proof.
  induction 1 as [| x xs E _ IH]; simpl; [reflexivity |].
  now rewrite E, IH.
Qed.

(** X20. Inserting the pre-order listing of a search tree into the empty
    tree builds the same tree, node for node; so every search tree is the
    result of a sequence of [insert] calls. *)
Theorem rebuild_from_preorder t :
  BST t -> insert_all (preorder t) Leaf = t.
Proof.
  induction t as [| k v l IHl r IHr]; [reflexivity |].
  intros (Fl & Fr & Bl & Br).
  pose proof (@Forall_preorder _ l Fl) as Pl.
  pose proof (@Forall_preorder _ r Fr) as Pr.
  cbn [preorder]. unfold insert_all at 1. cbn [fold_left fst snd insert].
  fold (insert_all (preorder l ++ preorder r) (Node k v Leaf Leaf)).
  rewrite insert_all_node, !filter_app.
  - rewrite (filter_all _ (xs := preorder l)), (filter_none _ (xs := preorder r)),
      (filter_none _ (xs := preorder l)), (filter_all _ (xs := preorder r)).
    + rewrite !app_nil_r. cbn [app]. now rewrite IHl, IHr.
    + eapply Forall_impl; [| exact Pr]. simpl. intros kv L.
      destruct (compare_keysP (fst kv) k); try order; reflexivity.
    + eapply Forall_impl; [| exact Pl]. simpl. intros kv L.
      destruct (compare_keysP (fst kv) k); try order; reflexivity.
    + eapply Forall_impl; [| exact Pr]. simpl. intros kv L.
      destruct (compare_keysP (fst kv) k); try order; reflexivity.
    + eapply Forall_impl; [| exact Pl]. simpl. intros kv L. exact L.
  - apply Forall_app. split.
    + eapply Forall_impl; [| exact Pl]. simpl. intros kv L E. order.
    + eapply Forall_impl; [| exact Pr]. simpl. intros kv L E. order.
Qed.

End More.

(** * The properties on the trees of [_demo] *)

(** Proves [BST t] for a closed tree with integer keys. *)
Ltac bst_closed := simpl; repeat (split || constructor).

Lemma demo_tree_BST : BST demo_tree.
Proof. bst_closed. Defined.

Example demo_height : height demo_tree = 3%Z.
Proof. reflexivity. Qed.

Example demo_balanced : is_balanced demo_tree = true.
Proof. reflexivity. Qed.

Example demo_search : search 4%Z demo_tree = Some "mid"%string.
Proof. reflexivity. Qed.

Example demo_delete :
  let (t, removed) := delete 3%Z demo_tree in
  removed = true /\ search 3%Z t = None /\ height t = 3%Z
  /\ is_balanced t = true
  /\ keys t = [2; 4; 5; 7]%Z.
Proof. vm_compute. repeat split. Qed.

Example demo_delete_trace :
  _delete_trace demo_tree 3%Z = [TwoChildrenCase; LeafCase].
Proof. reflexivity. Qed.

(** Keys inserted in ascending order give a chain, reported unbalanced. *)
Example chain_unbalanced :
  is_balanced
    (insert_all [(1, "a"); (2, "b"); (3, "c")]%Z%string Leaf) = false.
Proof. reflexivity. Qed.

(** Both height bounds are reached: by a chain and by a full tree. *)
Example bounds_reached :
  let chain := insert_all [(1, "a"); (2, "b"); (3, "c")]%Z%string Leaf in
  let full := insert_all [(2, "b"); (1, "a"); (3, "c")]%Z%string Leaf in
  height chain = Z.of_nat (size chain)
  /\ height full = ceil_log2 (Z.of_nat (size full) + 1).
Proof. split; reflexivity. Qed.

Example ceil_log2_values :
  map ceil_log2 [1; 2; 3; 4; 5; 8; 9]%Z = [0; 1; 2; 2; 3; 3; 4]%Z.
Proof. reflexivity. Qed.

(** A run of the two mutating methods from the empty tree. *)
Example run_demo :
  keys (run [OpInsert 5 "a"; OpInsert 3 "b"; OpInsert 7 "c"; OpDelete 5;
             OpInsert 3 "d"; OpDelete 4]%Z%string Leaf) = [3; 7]%Z.
Proof. reflexivity. Qed.

(** Without the ordering, [delete] can miss a key that a node holds. *)
Example delete_misses_in_unordered_tree :
  In 9%Z (keys unordered_tree)
  /\ delete 9%Z unordered_tree = (unordered_tree, false).
Proof. split; [simpl; auto | reflexivity]. Qed.

Lemma delete_present_witness :
  BST demo_tree /\ In 3%Z (keys demo_tree)
  /\ (snd (delete 3%Z demo_tree) = true
      /\ search 3%Z (fst (delete 3%Z demo_tree)) = None
      /\ Z.of_nat (size (fst (delete 3%Z demo_tree)))
         = (Z.of_nat (size demo_tree) - 1)%Z).
Proof.
  assert (I : In 3%Z (keys demo_tree)) by (simpl; auto).
  split; [exact demo_tree_BST |].
  split; [exact I |].
  exact (@delete_present Z String.string _ demo_tree 3%Z demo_tree_BST I).
Defined.

Lemma search_after_insert_witness :
  NoDup (map fst demo_pairs) /\ In (4%Z, "mid"%string) demo_pairs
  /\ ~ In 6%Z (map fst demo_pairs)
  /\ search 3%Z (insert 3%Z "new"%string demo_tree) = Some "new"%string
  /\ search 4%Z (insert_all demo_pairs Leaf) = Some "mid"%string
  /\ search 6%Z (insert_all demo_pairs Leaf) = None
  /\ search 6%Z (insert_all [] (Leaf : tree Z String.string)) = None
  /\ search 4%Z (insert_all demo_pairs Leaf) = last_inserted 4%Z demo_pairs.
Proof.
  assert (ND : NoDup (map fst demo_pairs)).
  { simpl. repeat constructor; simpl; intuition discriminate. }
  assert (I : In (4%Z, "mid"%string) demo_pairs) by (simpl; auto 10).
  assert (N : ~ In 6%Z (map fst demo_pairs)).
  { simpl. intuition discriminate. }
  assert (N0 : ~ In 6%Z (map fst (@nil (Z * String.string)))).
  { simpl. tauto. }
  destruct (@search_after_insert Z String.string _) as (S1 & S2 & S3 & S4).
  split; [exact ND |]. split; [exact I |]. split; [exact N |].
  split; [exact (S1 demo_tree 3%Z "new"%string) |].
  split; [exact (S2 demo_pairs 4%Z "mid"%string ND I) |].
  split; [exact (S3 demo_pairs 6%Z N) |].
  split; [exact (S3 [] 6%Z N0) |].
  exact (S4 demo_pairs 4%Z).
Defined.

Lemma delete_absent_witness :
  ~ In 6%Z (keys demo_tree)
  /\ (delete 6%Z demo_tree = (demo_tree, false)
      /\ height (fst (delete 6%Z demo_tree)) = height demo_tree
      /\ is_balanced (fst (delete 6%Z demo_tree)) = is_balanced demo_tree
      /\ (forall k',
             search k' (fst (delete 6%Z demo_tree)) = search k' demo_tree)).
Proof.
  assert (N : ~ In 6%Z (keys demo_tree)).
  { simpl. intuition discriminate. }
  split; [exact N |].
  exact (@delete_absent Z String.string _ demo_tree 6%Z N).
Defined.

Lemma delete_two_children_witness :
  BST demo_tree
  /\ _delete demo_tree 5%Z
     = (Node 7%Z "right"%string
             (Node 3%Z "left"%string
                   (Node 2%Z "leaf"%string Leaf Leaf)
                   (Node 4%Z "mid"%string Leaf Leaf))
             Leaf,
        true)
  /\ ~ In TwoChildrenCase
       (_delete_trace (Node 7%Z "right"%string Leaf Leaf) 7%Z).
Proof.
  split; [exact demo_tree_BST |].
  pose proof
    (@delete_two_children Z String.string _
       5%Z "root"%string
       3%Z "left"%string
       (Node 2%Z "leaf"%string Leaf Leaf) (Node 4%Z "mid"%string Leaf Leaf)
       7%Z "right"%string Leaf Leaf demo_tree_BST)
    as (_ & E & _ & _ & _ & _ & N).
  split; [exact E | exact N].
Defined.

Lemma insert_twice_witness :
  BST demo_tree
  /\ (let t1 := insert 4%Z "one"%string demo_tree in
      let t2 := insert 4%Z "two"%string t1 in
      with_key 4%Z (bindings t2) = [(4%Z, "two"%string)]
      /\ search 4%Z t2 = Some "two"%string
      /\ shape_of t2 = shape_of t1
      /\ size t2 = size t1
      /\ keys t2 = keys t1).
Proof.
  split; [exact demo_tree_BST |].
  exact (@insert_twice Z String.string _ demo_tree 4%Z "one"%string
           "two"%string demo_tree_BST).
Defined.

Lemma delete_frame_witness :
  BST demo_tree /\ 4%Z <> 3%Z
  /\ search 4%Z (fst (delete 3%Z demo_tree)) = search 4%Z demo_tree.
Proof.
  assert (N : 4%Z <> 3%Z) by discriminate.
  split; [exact demo_tree_BST |]. split; [exact N |].
  exact (@delete_frame Z String.string _ demo_tree 3%Z 4%Z demo_tree_BST N).
Defined.


Lemma insert_frame_witness :
  4%Z <> 3%Z
  /\ search 4%Z (insert 3%Z "new"%string demo_tree) = search 4%Z demo_tree.
Proof.
  assert (N : 4%Z <> 3%Z) by discriminate.
  split; [exact N |].
  exact (@insert_frame Z String.string _ demo_tree 3%Z 4%Z "new"%string N).
Defined.



Lemma delete_bindings_witness :
  BST demo_tree
  /\ bindings (fst (delete 3%Z demo_tree))
     = without_key 3%Z (bindings demo_tree)
  /\ BST (fst (delete 3%Z demo_tree)).
Proof.
  split; [exact demo_tree_BST |].
  exact (@delete_bindings Z String.string _ demo_tree 3%Z demo_tree_BST).
Defined.

Lemma delete_again_witness :
  BST demo_tree
  /\ delete 3%Z (fst (delete 3%Z demo_tree))
     = (fst (delete 3%Z demo_tree), false).
Proof.
  split; [exact demo_tree_BST |].
  exact (@delete_again Z String.string _ demo_tree 3%Z demo_tree_BST).
Defined.

Lemma delete_commutes_witness :
  BST demo_tree
  /\ bindings (fst (delete 3%Z (fst (delete 5%Z demo_tree))))
     = bindings (fst (delete 5%Z (fst (delete 3%Z demo_tree)))).
Proof.
  split; [exact demo_tree_BST |].
  exact (@delete_commutes Z String.string _ demo_tree 3%Z 5%Z demo_tree_BST).
Defined.

Lemma overwrite_keeps_shape_witness :
  search 4%Z demo_tree <> None
  /\ (shape_of (insert 4%Z "new"%string demo_tree) = shape_of demo_tree
      /\ size (insert 4%Z "new"%string demo_tree) = size demo_tree
      /\ keys (insert 4%Z "new"%string demo_tree) = keys demo_tree
      /\ height (insert 4%Z "new"%string demo_tree) = height demo_tree
      /\ is_balanced (insert 4%Z "new"%string demo_tree)
         = is_balanced demo_tree).
Proof.
  assert (S : search 4%Z demo_tree <> None) by discriminate.
  split; [exact S |].
  exact (@overwrite_keeps_shape Z String.string _ demo_tree 4%Z
           "new"%string S).
Defined.

Lemma successor_minimum_witness :
  BST two_children_tree
  /\ successor 5%Z "root"%string (Node 4%Z "mid"%string Leaf Leaf)
     = (4%Z, "mid"%string)
  /\ key_lt 3%Z 4%Z.
Proof.
  assert (B : BST two_children_tree) by bst_closed.
  split; [exact B |]. split; [reflexivity |].
  exact (proj1
           (@successor_minimum Z String.string _
              3%Z "left"%string (Node 2%Z "leaf"%string Leaf Leaf)
              5%Z "root"%string (Node 4%Z "mid"%string Leaf Leaf)
              (Node 7%Z "right"%string Leaf Leaf) B)).
Defined.



Lemma insert_commutes_witness :
  BST demo_tree /\ 6%Z <> 1%Z
  /\ bindings (insert 6%Z "six"%string (insert 1%Z "one"%string demo_tree))
     = bindings (insert 1%Z "one"%string (insert 6%Z "six"%string demo_tree)).
Proof.
  assert (N : 6%Z <> 1%Z) by discriminate.
  split; [exact demo_tree_BST |]. split; [exact N |].
  exact (@insert_commutes Z String.string _ demo_tree 6%Z "six"%string
           1%Z "one"%string demo_tree_BST N).
Defined.

Lemma balanced_height_log_witness :
  is_balanced demo_tree = true
  /\ ((2 ^ (height demo_tree / 2) <= Z.of_nat (size demo_tree) + 1)%Z
      /\ (height demo_tree
          <= 2 * Z.log2 (Z.of_nat (size demo_tree) + 1) + 1)%Z).
Proof.
  assert (B : is_balanced demo_tree = true) by reflexivity.
  split; [exact B |].
  exact (@balanced_height_log Z String.string demo_tree B).
Defined.

Lemma sorted_insertion_chain_witness :
  ascending (map fst sorted_pairs)
  /\ (insert_all sorted_pairs Leaf = chain sorted_pairs
      /\ height (insert_all sorted_pairs Leaf)
         = Z.of_nat (length sorted_pairs)
      /\ is_balanced (insert_all sorted_pairs Leaf)
         = (length sorted_pairs <=? 2)%nat).
Proof.
  assert (A : ascending (map fst sorted_pairs)).
  { unfold ascending. simpl. repeat constructor. }
  split; [exact A |].
  exact (@sorted_insertion_chain Z String.string _ sorted_pairs A).
Defined.

Lemma rebuild_from_preorder_witness :
  BST demo_tree /\ insert_all (preorder demo_tree) Leaf = demo_tree.
Proof.
  split; [exact demo_tree_BST |].
  exact (@rebuild_from_preorder Z String.string _ demo_tree demo_tree_BST).
Defined.
